(** * A 2-gram inverted index over an address table (app.py)

    Shallow embedding of [load_csv], [generate_2grams],
    [build_inverted_index], [search_addresses], [display_results] and
    [main], followed by the properties of the tokenizer, the index
    builder, the query engine and the program as a whole. *)

From stdpp Require Import gmap list sets fin_maps sorting.
From Stdlib Require Import ZArith Lia.

Local Open Scope Z_scope.
Local Open Scope nat_scope.

(** ** Data model *)

(** A Python [str] is a sequence of Unicode code points; slicing and [len]
    count code points, never bytes. *)
Abbreviation str := (list N).

(** A cell of the table as [pd.read_csv(..., dtype=str)] delivers it: a
    string, or the missing-value marker (float NaN) for an empty field. *)
Inductive cell : Type :=
  | Text (s : str)
  | NaN.

(** The three code points of the Python literal ['nan']. *)
Definition nan_repr : str := [110%N; 97%N; 110%N].

(** [str(x)] on a cell: the identity on strings, ['nan'] on NaN. *)
Definition py_str (c : cell) : str :=
  match c with
  | Text s => s
  | NaN => nan_repr
  end.

(** One record of the corpus: field name to text.  A field with no entry
    is a missing value. *)
Abbreviation Row := (gmap (list N) (list N)).

(** [row[col]] for a column of the frame: the text, or NaN when the record
    carries no value for it. *)
Definition row_getitem (row : Row) (col : str) : cell :=
  match row !! col with
  | Some s => Text s
  | None => NaN
  end.

(** A DataFrame: its column names, its index (one label per row) and its
    rows.  [read_csv] gives the labels 0, 1, 2, ... unless the data lines
    have one field more than the header, when the first field of each
    line becomes the label of its row.  Labels are followed here as far
    as they are non-negative integers. *)
Record DataFrame : Type := mkDataFrame {
  columns : list str;
  row_labels : list nat;
  rows : list Row
}.

(** [df.iterrows()]: each row paired with its label. *)
Definition iterrows (df : DataFrame) : list (nat * Row) :=
  zip (row_labels df) (rows df).

(** The frame has the default index: the label of a row is its position. *)
Definition default_index (df : DataFrame) : Prop :=
  row_labels df = seq 0 (length (rows df)).

(** The inverted index, a [defaultdict(list)] from 2-gram to row labels. *)
Abbreviation Index := (gmap (list N) (list nat)).

(** [index[k]] on a [defaultdict(list)]: a key that is missing is first
    inserted with a fresh empty list, which is then returned. *)
Definition dd_getitem (index : Index) (k : str) : list nat * Index :=
  match index !! k with
  | Some l => (l, index)
  | None => ([], <[k := []]> index)
  end.

(** [index[k].append(i)]: the list stored under [k] grows in place. *)
Definition dd_append (index : Index) (k : str) (i : nat) : Index :=
  let '(l, index') := dd_getitem index k in
  <[k := l ++ [i]]> index'.

(** Reading a posting list without touching the dictionary: a key that is
    absent stands for the empty list. *)
Definition postings (index : Index) (t : str) : list nat :=
  default [] (index !! t).

(** ** Tokenizer *)

(** [text[i:j]] for [0 <= i <= j]; both ends are clamped to [len(text)]. *)
Definition slice (text : str) (i j : nat) : str :=
  take (j - i) (drop i text).

(** [range(n)]: empty when [n <= 0]. *)
Definition range (n : Z) : list nat :=
  seq 0 (Z.to_nat n).

(** [[text[i:i+2] for i in range(len(text) - 1)]] *)
Definition generate_2grams (text : str) : list str :=
  (λ i, slice text i (i + 2)) <$> range (Z.of_nat (length text) - 1).

(** ** Index builder *)

(** The columns concatenated into the searchable text, in this order. *)
Definition searchable_columns : list str :=
  [ [37117; 36947; 24220; 30476]%N;                  (* 都道府県 *)
    [37117; 36947; 24220; 30476; 12459; 12490]%N;    (* 都道府県カナ *)
    [24066; 21306; 30010; 26449]%N;                  (* 市区町村 *)
    [24066; 21306; 30010; 26449; 12459; 12490]%N;    (* 市区町村カナ *)
    [30010; 22495]%N;                                (* 町域 *)
    [30010; 22495; 12459; 12490]%N;                  (* 町域カナ *)
    [30010; 22495; 35036; 36275]%N;                  (* 町域補足 *)
    [35036; 36275]%N;                                (* 補足 *)
    [20107; 26989; 25152; 21517]%N;                  (* 事業所名 *)
    [20107; 26989; 25152; 21517; 12459; 12490]%N;    (* 事業所名カナ *)
    [20107; 26989; 25152; 20303; 25152]%N ].         (* 事業所住所 *)

(** The inner loop over the column list: a column the frame does not have
    is skipped, any other contributes [str(row[col])]. *)
Definition full_text_over (cols : list str) (df : DataFrame) (row : Row) : str :=
  foldl (λ full_text col,
           if bool_decide (col ∈ columns df)
           then full_text ++ py_str (row_getitem row col)
           else full_text)
        [] cols.

(** The body of the loop over the rows: tokenize the row's text and append
    the row label to the list of every token, once per occurrence. *)
Definition index_row (cols : list str) (df : DataFrame)
    (index : Index) (i : nat) (row : Row) : Index :=
  let tokens := generate_2grams (full_text_over cols df row) in
  foldl (λ index token, dd_append index token i) index tokens.

(** [build_inverted_index] with the column list as a parameter. *)
Definition build_inverted_index_over (cols : list str) (df : DataFrame) : Index :=
  foldl (λ index ir, index_row cols df index ir.1 ir.2) ∅ (iterrows df).

Definition full_text : DataFrame → Row → str :=
  full_text_over searchable_columns.

Definition build_inverted_index : DataFrame → Index :=
  build_inverted_index_over searchable_columns.

(** ** Query engine *)

(** What [search_addresses] hands back. *)
Inductive outcome : Type :=
  | EmptyList                 (* the literal [[]] of the short-query branch *)
  | Selected (ids : gset nat) (* [df.iloc[...]]: the rows at these positions *)
  | IndexError.               (* [df.iloc[...]] given a position past the end *)

(** [df.iloc[list(matched_indices)]]: the labels gathered from the index
    are taken as positions in the frame. *)
Definition iloc (df : DataFrame) (matched_indices : gset nat) : outcome :=
  if bool_decide (set_Forall (λ i, i < length (rows df)) matched_indices)
  then Selected matched_indices
  else IndexError.

(** One turn of the narrowing loop; the lookup goes through the
    [defaultdict], so the index is threaded along. *)
Definition narrow (st : gset nat * Index) (token : str) : gset nat * Index :=
  let '(current, index') := dd_getitem st.2 token in
  (st.1 ∩ list_to_set current, index').

(** [search_addresses]: the value returned, and the index as the call
    leaves it. *)
Definition search_addresses (query : str) (index : Index) (df : DataFrame)
    : outcome * Index :=
  match generate_2grams query with
  | [] => (EmptyList, index)
  | token0 :: rest =>
      let '(first, index0) := dd_getitem index token0 in
      let st := foldl narrow (list_to_set first, index0) rest in
      (iloc df st.1, st.2)
  end.

(** The set of row labels a result stands for. *)
Definition result_ids (o : outcome) : gset nat :=
  match o with
  | Selected ids => ids
  | EmptyList | IndexError => ∅
  end.

(** ** The two-record example corpus *)

Definition s_tokyo_to : str := [26481; 20140; 37117]%N.   (* 東京都 *)
Definition s_shinjuku_ku : str := [26032; 23487; 21306]%N. (* 新宿区 *)
Definition s_osaka_fu : str := [22823; 38442; 24220]%N.    (* 大阪府 *)
Definition s_osaka_shi : str := [22823; 38442; 24066]%N.   (* 大阪市 *)
Definition s_osaka : str := [22823; 38442]%N.              (* 大阪 *)
Definition s_to_ku : str := [37117; 21306]%N.              (* 都区 *)
Definition s_to_shin : str := [37117; 26032]%N.            (* 都新 *)
Definition s_okinawa : str := [27798; 32260]%N.            (* 沖縄 *)

Definition col_pref : str := [37117; 36947; 24220; 30476]%N.  (* 都道府県 *)
Definition col_city : str := [24066; 21306; 30010; 26449]%N.  (* 市区町村 *)

Definition example_df : DataFrame :=
  {| columns := [col_pref; col_city];
     row_labels := [0; 1];
     rows := [ {[ col_pref := s_tokyo_to; col_city := s_shinjuku_ku ]};
               {[ col_pref := s_osaka_fu; col_city := s_osaka_shi ]} ] |}.

(** The same corpus under the field names [pref] and [city]. *)
Definition name_pref : str := [112; 114; 101; 102]%N.  (* pref *)
Definition name_city : str := [99; 105; 116; 121]%N.   (* city *)

Definition example_records : DataFrame :=
  {| columns := [name_pref; name_city];
     row_labels := [0; 1];
     rows := [ {[ name_pref := s_tokyo_to; name_city := s_shinjuku_ku ]};
               {[ name_pref := s_osaka_fu; name_city := s_osaka_shi ]} ] |}.

(** The 2-gram [na]. *)
Definition s_na : str := [110; 97]%N.

(** The table read from a CSV file with the header [都道府県,市区町村] and
    the two data lines [東京都,] and [,]: the first record has no city, the
    second record has no value at all. *)
Definition sparse_df : DataFrame :=
  {| columns := [col_pref; col_city];
     row_labels := [0; 1];
     rows := [ {[ col_pref := s_tokyo_to ]}; ∅ ] |}.

(** ** Vocabulary of the statements *)

(** [t] occurs in [text] as a contiguous substring. *)
Definition occurs_in (t text : str) : Prop :=
  ∃ pre post, text = pre ++ t ++ post.

(** How many times [x] is an element of [l]. *)
Definition count_of `{EqDecision A} (x : A) (l : list A) : nat :=
  length (filter (x =.) l).

(** The value a record has in a column: its text, and the empty string
    when the frame has no such column or the record no value in it. *)
Definition field_value (df : DataFrame) (row : Row) (col : str) : str :=
  if bool_decide (col ∈ columns df) then default [] (row !! col) else [].

(** The searchable text of a record: its values in the searchable
    columns, in their order, with nothing in between. *)
Definition record_text (df : DataFrame) (row : Row) : str :=
  concat (field_value df row <$> searchable_columns).

(** At how many places [t] starts in [text]. *)
Definition occurrences (t text : str) : nat :=
  length (filter (λ i, take (length t) (drop i text) = t)
                 (seq 0 (length text))).

(** No record lacks a value in a searchable column of the frame. *)
Definition complete (df : DataFrame) : Prop :=
  Forall (λ row : Row,
            Forall (λ col, col ∈ columns df → is_Some (row !! col))
                   searchable_columns)
         (rows df).

(** What one configured column adds to the text the builder makes. *)
Definition field_text (df : DataFrame) (row : Row) (col : str) : str :=
  if bool_decide (col ∈ columns df) then py_str (row_getitem row col) else [].

(** The 2-grams of the record at position [i], if there is one. *)
Definition tokens_at (cols : list str) (df : DataFrame) (i : nat) : list str :=
  match rows df !! i with
  | Some row => generate_2grams (full_text_over cols df row)
  | None => []
  end.

(** Posting lists with repeated labels dropped. *)
Definition dedup_index (index : Index) : Index :=
  remove_dups <$> index.

(** For each labelled record in turn, [g row] copies of its label. *)
Definition label_blocks (g : Row → nat) (irs : list (nat * Row)) : list nat :=
  irs ≫= λ ir, replicate (g ir.2) ir.1.

(** ** Loading, display and the main program *)

(** What the program writes to standard output, line by line. *)
Inductive encoding : Type := shift_jis | euc_jp | iso2022_jp | cp932.

Inductive printed : Type :=
  | LoadedWith (enc : encoding)  (* Successfully loaded with encoding: enc *)
  | FailedWith (enc : encoding)  (* Failed with encoding: enc *)
  | RowLine (line : str).        (* one [print] of [display_results] *)

(** The exceptions that can leave the program, told apart by the place
    that raises them.  What [read_csv] raises is kept as it came, under
    its name: it may well be a ValueError of pandas' own. *)
Inductive exn : Type :=
  | ValueError                (* the [raise ValueError] of [load_csv] *)
  | ReaderError (what : str)  (* raised inside read_csv, not a
                                 UnicodeDecodeError; passed on untouched *)
  | OutOfBounds               (* the IndexError of [df.iloc] for a
                                 position past the end *)
  | AttributeError            (* [results.iterrows] on a list *)
  | KeyError (col : str).     (* [row[col]] for a column the frame lacks *)

(** A run: the lines printed so far, and the exception or the value. *)
Definition run (A : Type) : Type := list printed * (exn + A).

Definition raise {A} (e : exn) : run A := ([], inl e).
Definition print (p : printed) : run unit := ([p], inr tt).

#[global] Instance run_ret : MRet run := λ A a, ([], inr a).

(** Sequencing: an exception ends the run, keeping what was printed. *)
#[global] Instance run_bind : MBind run := λ A B k m,
  match m.2 with
  | inl e => (m.1, inl e)
  | inr a => (m.1 ++ (k a).1, (k a).2)
  end.

(** What one call [pd.read_csv(file_path, dtype=str, encoding=enc)] does:
    it returns a frame, raises UnicodeDecodeError, or raises something
    else (no such file, a malformed table). *)
Inductive read_outcome : Type :=
  | ReadOk (df : DataFrame)
  | DecodeError
  | ReadFailure (what : str).

Definition encodings : list encoding := [shift_jis; euc_jp; iso2022_jp; cp932].

(** The loop of [load_csv] over the encodings still to try; only
    UnicodeDecodeError is caught. *)
Fixpoint load_csv_loop (read : encoding → read_outcome) (encs : list encoding)
    : run DataFrame :=
  match encs with
  | [] => raise ValueError
  | enc :: encs' =>
      match read enc with
      | ReadOk df => _ ← print (LoadedWith enc); mret df
      | DecodeError => _ ← print (FailedWith enc); load_csv_loop read encs'
      | ReadFailure what => raise (ReaderError what)
      end
  end.

Definition load_csv (read_csv : str → encoding → read_outcome) (file_path : str)
    : run DataFrame :=
  load_csv_loop (read_csv file_path) encodings.

(** The columns [display_results] prints, in the order of the call. *)
Definition col_postal : str := [37109; 20415; 30058; 21495]%N.  (* 郵便番号 *)
Definition col_town : str := [30010; 22495]%N.                   (* 町域 *)

Definition display_columns : list str :=
  [col_postal; col_pref; col_city; col_town].

(** [row[col]] on a row of [df], with the KeyError of a column the frame
    does not have. *)
Definition series_getitem (df : DataFrame) (row : Row) (col : str) : exn + cell :=
  if bool_decide (col ∈ columns df) then inr (row_getitem row col)
  else inl (KeyError col).

(** The arguments of a call, evaluated left to right. *)
Fixpoint getitems (df : DataFrame) (row : Row) (cols : list str)
    : exn + list cell :=
  match cols with
  | [] => inr []
  | col :: cols' =>
      match series_getitem df row col with
      | inl e => inl e
      | inr c =>
          match getitems df row cols' with
          | inl e => inl e
          | inr cs => inr (c :: cs)
          end
      end
  end.

(** The line [print(a, b, ...)] writes: the [str] of each argument, one
    space in between. *)
Fixpoint print_line (parts : list str) : str :=
  match parts with
  | [] => []
  | [part] => part
  | part :: parts' => part ++ [32%N] ++ print_line parts'
  end.

(** The body of the loop of [display_results]. *)
Definition display_row (df : DataFrame) (row : Row) : run unit :=
  match getitems df row display_columns with
  | inl e => raise e
  | inr cells => print (RowLine (print_line (py_str <$> cells)))
  end.

Fixpoint display_rows (df : DataFrame) (selected : list Row) : run unit :=
  match selected with
  | [] => mret tt
  | row :: selected' => _ ← display_row df row; display_rows df selected'
  end.

(** The rows of the frame [df.iloc[...]] returned.  The order is the one
    [list(matched_indices)] had, which Python leaves open; here it is the
    order of [elements]. *)
Definition selected_rows (df : DataFrame) (ids : gset nat) : list Row :=
  omap (λ i, rows df !! i) (elements ids).

(** [display_results], given the frame the result was taken from.  The
    list [[]] has no [iterrows]; an [IndexError] met in the search is
    still in flight and goes on. *)
Definition display_results (df : DataFrame) (results : outcome) : run unit :=
  match results with
  | EmptyList => raise AttributeError
  | IndexError => raise OutOfBounds
  | Selected ids => display_rows df (selected_rows df ids)
  end.

(** [main], with the file reader as a parameter. *)
Definition main (read_csv : str → encoding → read_outcome)
    (file_path search_query : str) : run unit :=
  df ← load_csv read_csv file_path;
  display_results df
    (search_addresses search_query (build_inverted_index df) df).1.

(** The index after a series of queries, each run on what the one before
    left behind. *)
Definition index_after (df : DataFrame) (index : Index) (queries : list str)
    : Index :=
  foldl (λ index q, (search_addresses q index df).2) index queries.

(** A text put together again from its 2-grams: the first character of
    the first one, then the second character of each. *)
Definition rebuild_text (tokens : list str) : str :=
  match tokens with
  | [] => []
  | token :: _ => take 1 token ++ (tokens ≫= drop 1)
  end.

(** ** Example data for the loader and the display *)

Definition s_chiyoda : str := [21315; 20195; 30000]%N.           (* 千代田 *)
Definition s_zip : str := [49; 48; 48; 45; 48; 48; 48; 49]%N.    (* 100-0001 *)

(** The example corpus with a postal code and a town column; the second
    record has no town. *)
Definition postal_df : DataFrame :=
  {| columns := [col_postal; col_pref; col_city; col_town];
     row_labels := [0; 1];
     rows := [ {[ col_postal := s_zip; col_pref := s_tokyo_to;
                  col_city := s_shinjuku_ku; col_town := s_chiyoda ]};
               {[ col_postal := s_zip; col_pref := s_osaka_fu;
                  col_city := s_osaka_shi ]} ] |}.

(** A file that is not Shift_JIS but reads as EUC-JP. *)
Definition euc_reader (file_path : str) (enc : encoding) : read_outcome :=
  match enc with
  | shift_jis => DecodeError
  | _ => ReadOk postal_df
  end.


(** A file no encoding of the list can decode. *)
Definition undecodable_reader (file_path : str) (enc : encoding) : read_outcome :=
  DecodeError.

(** The example corpus with a postal code in front of the two columns. *)
Definition zip_df : DataFrame :=
  {| columns := [col_postal; col_pref; col_city];
     row_labels := [0; 1];
     rows := [ {[ col_postal := s_zip; col_pref := s_tokyo_to;
                  col_city := s_shinjuku_ku ]};
               {[ col_postal := s_zip; col_pref := s_osaka_fu;
                  col_city := s_osaka_shi ]} ] |}.

(** A table whose only column is the postal code. *)
Definition zip_only_df : DataFrame :=
  {| columns := [col_postal];
     row_labels := [0; 1];
     rows := [ {[ col_postal := s_zip ]}; {[ col_postal := s_zip ]} ] |}.

(** The first record of the example corpus alone. *)
Definition first_row_df : DataFrame :=
  {| columns := [col_pref; col_city];
     row_labels := [0];
     rows := [ {[ col_pref := s_tokyo_to; col_city := s_shinjuku_ku ]} ] |}.


(** ** Vocabulary for the query and the display *)

(** Every 2-gram of the query is a 2-gram of the record's text. *)
Definition query_matches (df : DataFrame) (q : str) (row : Row) : Prop :=
  Forall (λ t, t ∈ generate_2grams (full_text df row)) (generate_2grams q).

#[global] Instance query_matches_dec df q row : Decision (query_matches df q row).
Proof. unfold query_matches. apply _. Defined.


(** ** Tokenizer: shape of the result *)

Section tokenizer.
Implicit Types (text t : str) (i : nat) (a b : N).

Lemma range_length (n : Z) : length (range n) = Z.to_nat n.
Proof. unfold range. by rewrite length_seq. Qed.

Lemma generate_2grams_length text :
  length (generate_2grams text) = length text - 1.
Proof.
  unfold generate_2grams. rewrite length_fmap, range_length. lia.
Qed.

Lemma slice_pair text i a b :
  text !! i = Some a → text !! S i = Some b → slice text i (i + 2) = [a; b].
Proof.
  intros Ha Hb. unfold slice.
  replace (i + 2 - i) with 2 by lia.
  rewrite (drop_S _ _ _ Ha), (drop_S _ _ _ Hb). done.
Qed.

Lemma generate_2grams_lookup_lt text i :
  S i < length text →
  generate_2grams text !! i = Some (slice text i (i + 2)).
Proof.
  intros Hi. unfold generate_2grams, range.
  rewrite list_lookup_fmap, lookup_seq_lt by lia. done.
Qed.

Lemma generate_2grams_lookup text i t :
  generate_2grams text !! i = Some t ↔
  ∃ a b, text !! i = Some a ∧ text !! S i = Some b ∧ t = [a; b].
Proof.
  split.
  - intros Ht.
    assert (Hi : i < length (generate_2grams text))
      by (apply lookup_lt_is_Some; eauto).
    rewrite generate_2grams_length in Hi.
    destruct (lookup_lt_is_Some_2 text i) as [a Ha]; [lia|].
    destruct (lookup_lt_is_Some_2 text (S i)) as [b Hb]; [lia|].
    exists a, b. split_and!; [done..|].
    rewrite generate_2grams_lookup_lt in Ht by lia.
    rewrite (slice_pair _ _ _ _ Ha Hb) in Ht. congruence.
  - intros (a & b & Ha & Hb & ->).
    apply lookup_lt_Some in Hb as Hlt.
    rewrite generate_2grams_lookup_lt by lia.
    by rewrite (slice_pair _ _ _ _ Ha Hb).
Qed.

(** A 2-gram of [text] is exactly a two-character contiguous substring. *)
Lemma elem_of_generate_2grams text t :
  t ∈ generate_2grams text ↔
  length t = 2 ∧ ∃ pre post, text = pre ++ t ++ post.
Proof.
  rewrite list_elem_of_lookup. split.
  - intros (i & (a & b & Ha & Hb & ->)%generate_2grams_lookup).
    split; [done|]. exists (take i text), (drop (S (S i)) text).
    rewrite <- (take_drop i text) at 1. f_equal.
    rewrite (drop_S _ _ _ Ha), (drop_S _ _ _ Hb). done.
  - intros [Hlen (pre & post & ->)].
    destruct t as [|a [|b [|? ?]]]; simplify_eq/=.
    exists (length pre). apply generate_2grams_lookup. exists a, b.
    split_and!; [|  |done].
    + by rewrite lookup_app_r, Nat.sub_diag by lia.
    + rewrite lookup_app_r by lia.
      by replace (S (length pre) - length pre) with 1 by lia.
Qed.

Lemma generate_2grams_short text :
  length text < 2 → generate_2grams text = [].
Proof.
  intros Hlen. apply length_zero_iff_nil.
  rewrite generate_2grams_length. lia.
Qed.

Lemma generate_2grams_nil_inv text :
  generate_2grams text = [] → length text < 2.
Proof.
  intros Hnil. apply (f_equal length) in Hnil.
  rewrite generate_2grams_length in Hnil. simpl in Hnil. lia.
Qed.
End tokenizer.

(** C3. For every string [s], [generate_2grams s] has exactly
    [max(0, len(s) - 2 + 1)] tokens; the token at position [i] is the
    two characters of [s] at offsets [i] and [i+1], hence of length 2 and
    in left-to-right order; and a string shorter than 2 yields the empty
    list. *)
Theorem generate_2grams_shape (s : str) :
  Z.of_nat (length (generate_2grams s))
    = Z.max 0 (Z.of_nat (length s) - 2 + 1)
  ∧ (∀ i, i < length (generate_2grams s) →
       ∃ a b, s !! i = Some a ∧ s !! (i + 1) = Some b
              ∧ generate_2grams s !! i = Some [a; b]
              ∧ slice s i (i + 2) = [a; b])
  ∧ (∀ t, t ∈ generate_2grams s → length t = 2)
  ∧ (length s < 2 → generate_2grams s = []).
Proof.
  split_and!.
  - rewrite generate_2grams_length. lia.
  - intros i Hi. rewrite generate_2grams_length in Hi.
    destruct (lookup_lt_is_Some_2 s i) as [a Ha]; [lia|].
    destruct (lookup_lt_is_Some_2 s (S i)) as [b Hb]; [lia|].
    exists a, b. replace (i + 1) with (S i) by lia.
    split_and!; [done..| |by apply slice_pair].
    apply generate_2grams_lookup; eauto.
  - by intros t [? _]%elem_of_generate_2grams.
  - apply generate_2grams_short.
Qed.

Lemma generate_2grams_shape_witness :
  (0 < length (generate_2grams [26481; 20140; 37117]%N)
   ∧ ∃ a b, [26481; 20140; 37117]%N !! 0 = Some a
            ∧ [26481; 20140; 37117]%N !! (0 + 1) = Some b
            ∧ generate_2grams [26481; 20140; 37117]%N !! 0 = Some [a; b]
            ∧ slice [26481; 20140; 37117]%N 0 (0 + 2) = [a; b])
  ∧ (length [26481%N] < 2 ∧ generate_2grams [26481%N] = []).
Proof.
  split.
  - split; [simpl; lia|].
    destruct (generate_2grams_shape [26481; 20140; 37117]%N) as (_ & H & _).
    apply (H 0). simpl; lia.
  - split; [simpl; lia|].
    destruct (generate_2grams_shape [26481%N]) as (_ & _ & _ & H).
    apply H. simpl; lia.
Defined.

(** ** Counting occurrences *)

Section counting.
Context `{EqDecision A}.
Implicit Types (x y : A) (l : list A).

Lemma count_of_cons x y l :
  count_of x (y :: l) = (if decide (x = y) then 1 else 0) + count_of x l.
Proof.
  unfold count_of. rewrite filter_cons. by case_decide.
Qed.

Lemma count_of_app x l1 l2 :
  count_of x (l1 ++ l2) = count_of x l1 + count_of x l2.
Proof. unfold count_of. by rewrite filter_app, length_app. Qed.

Lemma count_of_replicate x y n :
  count_of x (replicate n y) = if decide (x = y) then n else 0.
Proof.
  induction n as [|n IH]; simpl.
  - by case_decide.
  - rewrite count_of_cons, IH. by case_decide.
Qed.

Lemma count_of_ne_0 x l : count_of x l ≠ 0 ↔ x ∈ l.
Proof.
  induction l as [|y l IH].
  - split; [done|]. by intros ?%elem_of_nil.
  - rewrite count_of_cons, elem_of_cons. case_decide; [|simpl; tauto].
    split; [by left|simpl; lia].
Qed.
End counting.

(** ** The defaultdict *)

Section defaultdict.
Implicit Types (index : Index) (k t : str) (i : nat).

Lemma dd_getitem_fst index k : (dd_getitem index k).1 = postings index k.
Proof. unfold dd_getitem, postings. by destruct (index !! k). Qed.

Lemma dd_getitem_snd_lookup index k t :
  (dd_getitem index k).2 !! t =
  match index !! t with
  | Some l => Some l
  | None => if decide (t = k) then Some [] else None
  end.
Proof.
  unfold dd_getitem. destruct (index !! k) as [l|] eqn:Hk; simpl.
  - destruct (index !! t) eqn:Ht; [done|]. case_decide; congruence.
  - destruct (decide (t = k)) as [->|Hne].
    + by rewrite lookup_insert_eq, Hk.
    + rewrite lookup_insert_ne by done. by destruct (index !! t).
Qed.

Lemma postings_dd_getitem index k t :
  postings (dd_getitem index k).2 t = postings index t.
Proof.
  unfold postings. rewrite dd_getitem_snd_lookup.
  destruct (index !! t); [done|]. by case_decide.
Qed.

Lemma dd_append_insert index k i :
  dd_append index k i = <[k := postings index k ++ [i]]> index.
Proof.
  unfold dd_append, dd_getitem, postings.
  destruct (index !! k); simpl; [done|]. by rewrite insert_insert_eq.
Qed.

Lemma postings_dd_append index k i t :
  postings (dd_append index k i) t
  = postings index t ++ (if decide (t = k) then [i] else []).
Proof.
  rewrite dd_append_insert. unfold postings at 1. case_decide as Hk.
  - subst. by rewrite lookup_insert_eq.
  - rewrite lookup_insert_ne by done. by rewrite app_nil_r.
Qed.

Lemma dom_dd_append index k i :
  dom (dd_append index k i) = {[k]} ∪ dom index.
Proof. rewrite dd_append_insert. apply dom_insert_L. Qed.

Lemma postings_foldl_dd_append index i tokens t :
  postings (foldl (λ index token, dd_append index token i) index tokens) t
  = postings index t ++ replicate (count_of t tokens) i.
Proof.
  revert index. induction tokens as [|k tokens IH]; intros index; simpl.
  - by rewrite app_nil_r.
  - rewrite IH, postings_dd_append, count_of_cons, <- app_assoc.
    by case_decide.
Qed.

Lemma dom_foldl_dd_append index i tokens :
  dom (foldl (λ index token, dd_append index token i) index tokens)
  = dom index ∪ list_to_set tokens.
Proof.
  revert index. induction tokens as [|k tokens IH]; intros index; simpl.
  - apply set_eq. intros t. rewrite elem_of_union, elem_of_empty. tauto.
  - rewrite IH, dom_dd_append.
    apply set_eq. intros t. rewrite !elem_of_union. tauto.
Qed.

(** Appending never stores an empty list. *)
Lemma postings_nonempty_dd_append index k i :
  map_Forall (λ _ l, l ≠ []) index →
  map_Forall (λ _ l, l ≠ []) (dd_append index k i).
Proof.
  intros Hne. rewrite dd_append_insert. apply map_Forall_insert_2; [|done].
  by destruct (postings index k).
Qed.
End defaultdict.

(** ** Blocks of labels *)

Section blocks.
Implicit Types (g : Row → nat) (rs : list Row) (i x : nat).

Lemma elem_of_label_blocks g irs x :
  x ∈ label_blocks g irs ↔ ∃ row, (x, row) ∈ irs ∧ g row ≠ 0.
Proof.
  unfold label_blocks. rewrite list_elem_of_bind. split.
  - intros ([j row] & [-> ?]%elem_of_replicate & ?). eauto.
  - intros (row & ? & ?). exists (x, row).
    by rewrite elem_of_replicate.
Qed.

Lemma elem_of_label_blocks_imap g rs x :
  x ∈ label_blocks g (imap pair rs) ↔ ∃ row, rs !! x = Some row ∧ g row ≠ 0.
Proof.
  rewrite elem_of_label_blocks. split.
  - intros (row & (j & row' & [= -> ->] & ?)%elem_of_lookup_imap & ?). eauto.
  - intros (row & ? & ?). exists row. split; [|done].
    apply elem_of_lookup_imap. eauto.
Qed.

Lemma label_blocks_snoc g rs row :
  label_blocks g (imap pair (rs ++ [row]))
  = label_blocks g (imap pair rs) ++ replicate (g row) (length rs).
Proof.
  unfold label_blocks. rewrite imap_app, bind_app. simpl.
  by rewrite app_nil_r, Nat.add_0_r.
Qed.

Lemma StronglySorted_replicate n x : StronglySorted le (replicate n x).
Proof.
  induction n as [|n IH]; simpl; constructor; [done|].
  apply Forall_forall. by intros y ->%elem_of_replicate_inv.
Qed.

Lemma label_blocks_imap_sorted g rs :
  StronglySorted le (label_blocks g (imap pair rs)).
Proof.
  induction rs as [|row rs IH] using rev_ind; [constructor|].
  rewrite label_blocks_snoc.
  apply StronglySorted_app_2; [|done|apply StronglySorted_replicate].
  intros x1 x2 (r1 & Hr1 & _)%elem_of_label_blocks_imap ->%elem_of_replicate_inv.
  apply lookup_lt_Some in Hr1. lia.
Qed.

Lemma count_of_label_blocks_imap g rs i :
  count_of i (label_blocks g (imap pair rs)) = from_option g 0 (rs !! i).
Proof.
  induction rs as [|row rs IH] using rev_ind; [done|].
  rewrite label_blocks_snoc, count_of_app, count_of_replicate, IH.
  destruct (decide (i = length rs)) as [->|Hne].
  - rewrite list_lookup_middle by done.
    rewrite lookup_ge_None_2 by lia. done.
  - destruct (decide (i < length rs)).
    + rewrite lookup_app_l by done. lia.
    + rewrite !lookup_ge_None_2; [done|rewrite length_app; simpl; lia|lia].
Qed.
End blocks.

(** ** Frames with the default index *)

Lemma zip_seq_imap (k : nat) (rs : list Row) :
  zip (seq k (length rs)) rs = imap (λ i row, (k + i, row)) rs.
Proof.
  revert k. induction rs as [|r rs IH]; intros k; [done|].
  simpl. rewrite Nat.add_0_r. f_equal.
  rewrite IH. apply imap_ext. intros i x _. simpl. f_equal. lia.
Qed.

Lemma iterrows_default df :
  default_index df → iterrows df = imap pair (rows df).
Proof.
  unfold default_index, iterrows. intros ->.
  rewrite zip_seq_imap. by apply imap_ext.
Qed.

(** ** The index builder *)

Section builder.
Context (cols : list str) (df : DataFrame).
Implicit Types (index : Index) (t : str) (i r : nat) (row : Row).

Local Abbreviation tokens_of row := (generate_2grams (full_text_over cols df row)).
Local Abbreviation step :=
  (λ index (ir : nat * Row), index_row cols df index ir.1 ir.2).

Lemma postings_index_row index i row t :
  postings (index_row cols df index i row) t
  = postings index t ++ replicate (count_of t (tokens_of row)) i.
Proof. apply postings_foldl_dd_append. Qed.

Lemma nonempty_index_row index i row :
  map_Forall (λ _ l, l ≠ []) index →
  map_Forall (λ _ l, l ≠ []) (index_row cols df index i row).
Proof.
  unfold index_row. generalize (tokens_of row) as tokens.
  intros tokens. revert index.
  induction tokens as [|k tokens IH]; intros index Hne; simpl; [done|].
  by apply IH, postings_nonempty_dd_append.
Qed.

Lemma postings_foldl_index_row index irs t :
  postings (foldl step index irs) t
  = postings index t ++ label_blocks (λ row, count_of t (tokens_of row)) irs.
Proof.
  revert index. induction irs as [|[i row] irs IH]; intros index; simpl.
  - by rewrite app_nil_r.
  - rewrite IH, postings_index_row, <- app_assoc. done.
Qed.

Lemma nonempty_foldl_index_row index irs :
  map_Forall (λ _ l, l ≠ []) index →
  map_Forall (λ _ l, l ≠ []) (foldl step index irs).
Proof.
  revert index. induction irs as [|[i row] irs IH]; intros index Hne; simpl;
    [done|].
  by apply IH, nonempty_index_row.
Qed.

(** The posting list of [t], in closed form: for each record in corpus
    order, as many copies of its label as [t] has occurrences in it. *)
Lemma postings_build t :
  postings (build_inverted_index_over cols df) t
  = label_blocks (λ row, count_of t (tokens_of row)) (iterrows df).
Proof.
  unfold build_inverted_index_over. by rewrite postings_foldl_index_row.
Qed.

(** A label is listed under [t] exactly when it is the label of a row
    that has [t] among its 2-grams. *)
Lemma elem_of_postings_build_iterrows t x :
  x ∈ postings (build_inverted_index_over cols df) t ↔
  ∃ row, (x, row) ∈ iterrows df ∧ t ∈ tokens_of row.
Proof.
  rewrite postings_build, elem_of_label_blocks.
  by setoid_rewrite count_of_ne_0.
Qed.

Lemma elem_of_postings_build t r :
  default_index df →
  r ∈ postings (build_inverted_index_over cols df) t ↔
  ∃ row, rows df !! r = Some row ∧ t ∈ tokens_of row.
Proof.
  intros Hdef. rewrite postings_build, (iterrows_default df Hdef).
  rewrite elem_of_label_blocks_imap.
  by setoid_rewrite count_of_ne_0.
Qed.

Lemma nonempty_build :
  map_Forall (λ _ l, l ≠ []) (build_inverted_index_over cols df).
Proof. apply nonempty_foldl_index_row, map_Forall_empty. Qed.

Lemma lookup_build_None t :
  build_inverted_index_over cols df !! t = None ↔
  postings (build_inverted_index_over cols df) t = [].
Proof.
  unfold postings.
  destruct (build_inverted_index_over cols df !! t) as [l|] eqn:Hl; [|done].
  apply nonempty_build in Hl. simpl. split; [done|congruence].
Qed.

Lemma elem_of_dom_build_iterrows t :
  t ∈ dom (build_inverted_index_over cols df) ↔
  ∃ x row, (x, row) ∈ iterrows df ∧ t ∈ tokens_of row.
Proof.
  rewrite elem_of_dom, <- not_eq_None_Some, lookup_build_None.
  split.
  - intros Hne.
    destruct (postings (build_inverted_index_over cols df) t) as [|x l] eqn:Hp;
      [done|].
    exists x. apply elem_of_postings_build_iterrows. rewrite Hp. left.
  - intros (x & Hx%elem_of_postings_build_iterrows) Hnil.
    rewrite Hnil in Hx. by apply elem_of_nil in Hx.
Qed.

Lemma elem_of_dom_build t :
  default_index df →
  t ∈ dom (build_inverted_index_over cols df) ↔
  ∃ r row, rows df !! r = Some row ∧ t ∈ tokens_of row.
Proof.
  intros Hdef. rewrite elem_of_dom_build_iterrows, (iterrows_default df Hdef).
  split.
  - intros (x & row & (i & row' & [= -> ->] & Hrow)%elem_of_lookup_imap & Ht).
    eauto.
  - intros (r & row & Hrow & Ht). exists r, row. split; [|done].
    apply elem_of_lookup_imap. eauto.
Qed.

Lemma postings_build_sorted t :
  default_index df →
  StronglySorted le (postings (build_inverted_index_over cols df) t).
Proof.
  intros Hdef. rewrite postings_build, (iterrows_default df Hdef).
  apply label_blocks_imap_sorted.
Qed.

Lemma count_of_postings_build t r :
  default_index df →
  count_of r (postings (build_inverted_index_over cols df) t)
  = count_of t (tokens_at cols df r).
Proof.
  intros Hdef. rewrite postings_build, (iterrows_default df Hdef).
  unfold tokens_at.
  rewrite count_of_label_blocks_imap. by destruct (rows df !! r).
Qed.

(** The text of a record is the concatenation, in the order of [cols] and
    with nothing in between, of what each column contributes. *)
Lemma full_text_over_concat row :
  full_text_over cols df row = concat (field_text df row <$> cols).
Proof.
  unfold full_text_over.
  rewrite <- (app_nil_l (concat _)). generalize (@nil N) as acc.
  induction cols as [|col cols' IH]; intros acc; simpl.
  - by rewrite app_nil_r.
  - rewrite IH. unfold field_text. case_bool_decide; simpl.
    + by rewrite <- app_assoc.
    + done.
Qed.
End builder.

(** ** The query engine *)

Section query.
Implicit Types (index : Index) (st : gset nat * Index) (t : str) (x : nat).

Lemma narrow_fst st token :
  (narrow st token).1 = st.1 ∩ list_to_set (postings st.2 token).
Proof.
  unfold narrow. rewrite <- dd_getitem_fst.
  by destruct (dd_getitem st.2 token).
Qed.

Lemma narrow_snd st token : (narrow st token).2 = (dd_getitem st.2 token).2.
Proof. unfold narrow. by destruct (dd_getitem st.2 token). Qed.

Lemma foldl_narrow_snd_lookup st rest t :
  (foldl narrow st rest).2 !! t =
  match st.2 !! t with
  | Some l => Some l
  | None => if decide (t ∈ rest) then Some [] else None
  end.
Proof.
  revert st. induction rest as [|k rest IH]; intros st; simpl.
  - by destruct (st.2 !! t).
  - rewrite IH, narrow_snd, dd_getitem_snd_lookup.
    destruct (st.2 !! t); [done|].
    destruct (decide (t = k)) as [->|Hne].
    + rewrite decide_True; [done|left].
    + destruct (decide (t ∈ rest)) as [Hin|Hnin].
      * rewrite decide_True; [done|by right].
      * rewrite decide_False; [done|].
        by intros [?|?]%elem_of_cons.
Qed.

Lemma foldl_narrow_postings st rest t :
  postings (foldl narrow st rest).2 t = postings st.2 t.
Proof.
  unfold postings. rewrite foldl_narrow_snd_lookup.
  destruct (st.2 !! t); [done|]. by case_decide.
Qed.

Lemma elem_of_foldl_narrow_fst st rest x :
  x ∈ (foldl narrow st rest).1 ↔
  x ∈ st.1 ∧ ∀ t, t ∈ rest → x ∈ postings st.2 t.
Proof.
  revert st. induction rest as [|k rest IH]; intros st; simpl.
  - split; [|tauto]. intros ?. split; [done|]. by intros t ?%elem_of_nil.
  - rewrite IH, narrow_fst, narrow_snd, elem_of_intersection,
      elem_of_list_to_set.
    setoid_rewrite postings_dd_getitem. split.
    + intros [[? ?] Hrest]. split; [done|].
      intros t [->|?]%elem_of_cons; auto.
    + intros [? Hall]. split_and!; [done| |].
      * apply Hall. left.
      * intros t ?. apply Hall. by right.
Qed.

(** The index a call leaves behind: what was stored stays as it was, and
    every 2-gram of the query that was not a key is now bound to []. *)
Lemma search_addresses_snd_lookup query index df t :
  (search_addresses query index df).2 !! t =
  match index !! t with
  | Some l => Some l
  | None => if decide (t ∈ generate_2grams query) then Some [] else None
  end.
Proof.
  unfold search_addresses.
  destruct (generate_2grams query) as [|token0 rest]; simpl.
  - by destruct (index !! t).
  - pose proof (dd_getitem_snd_lookup index token0 t) as Hd.
    destruct (dd_getitem index token0) as [first index0]; simpl in *.
    rewrite foldl_narrow_snd_lookup; simpl. rewrite Hd.
    destruct (index !! t); [done|].
    destruct (decide (t = token0)) as [->|Hne].
    + rewrite decide_True; [done|left].
    + destruct (decide (t ∈ rest)) as [Hin|Hnin].
      * rewrite decide_True; [done|by right].
      * rewrite decide_False; [done|].
        by intros [?|?]%elem_of_cons.
Qed.

(** The value a call returns when the query has a 2-gram: [iloc] of the
    labels found in the posting list of every 2-gram of the query. *)
Lemma search_addresses_fst query index df :
  generate_2grams query ≠ [] →
  ∃ matched,
    (search_addresses query index df).1 = iloc df matched
    ∧ ∀ x, x ∈ matched ↔
           ∀ t, t ∈ generate_2grams query → x ∈ postings index t.
Proof.
  intros Hne. unfold search_addresses.
  destruct (generate_2grams query) as [|token0 rest]; [done|].
  pose proof (dd_getitem_fst index token0) as Hfst.
  pose proof (postings_dd_getitem index token0) as Hsnd.
  destruct (dd_getitem index token0) as [first index0]; simpl in *. subst first.
  eexists. split; [done|].
  intros x. rewrite elem_of_foldl_narrow_fst; simpl.
  rewrite elem_of_list_to_set. setoid_rewrite Hsnd. split.
  - intros [? Hrest] t [->|?]%elem_of_cons; auto.
  - intros Hall. split; [apply Hall; left|].
    intros t ?. apply Hall. by right.
Qed.

Lemma iloc_in_range df matched :
  (∀ x, x ∈ matched → x < length (rows df)) →
  iloc df matched = Selected matched.
Proof. intros Hall. unfold iloc. by rewrite bool_decide_eq_true_2. Qed.

(** The value returned depends on the index only through the set of
    labels in each posting list. *)
Lemma search_addresses_fst_ext query index index' df :
  (∀ t, list_to_set (C:=gset nat) (postings index t)
        = list_to_set (postings index' t)) →
  (search_addresses query index df).1 = (search_addresses query index' df).1.
Proof.
  intros Hsets.
  destruct (decide (generate_2grams query = [])) as [Hnil|Hne].
  - unfold search_addresses. by rewrite Hnil.
  - destruct (search_addresses_fst query index df Hne) as (m & -> & Hm).
    destruct (search_addresses_fst query index' df Hne) as (m' & -> & Hm').
    f_equal. apply set_eq. intros x. rewrite Hm, Hm'.
    apply forall_proper; intros t. apply forall_proper; intros _.
    by rewrite <- !(elem_of_list_to_set (C:=gset nat)), Hsets.
Qed.

Lemma postings_dedup_index index t :
  postings (dedup_index index) t = remove_dups (postings index t).
Proof.
  unfold postings, dedup_index. rewrite lookup_fmap.
  by destruct (index !! t).
Qed.
End query.

(** ** The example corpus *)

Lemma full_text_example :
  full_text example_df <$> rows example_df
  = [s_tokyo_to ++ s_shinjuku_ku; s_osaka_fu ++ s_osaka_shi].
Proof. vm_compute. reflexivity. Qed.

(** C7. On the two-record corpus (東京都, 新宿区), (大阪府, 大阪市), with the
    prefecture and city columns searchable in that order: the query 東京都
    returns record 0, 大阪 returns record 1, 都区 returns nothing, 都新
    returns record 0 across the field boundary, and 沖縄 returns nothing.
    This holds for the builder with its own column list on a frame whose
    headers are 都道府県 and 市区町村, and for the builder taken over the
    field names pref and city. *)
Theorem example_scenario :
  (search_addresses s_tokyo_to (build_inverted_index example_df) example_df).1
    = Selected {[0]}
  ∧ (search_addresses s_osaka (build_inverted_index example_df) example_df).1
    = Selected {[1]}
  ∧ (search_addresses s_to_ku (build_inverted_index example_df) example_df).1
    = Selected ∅
  ∧ (search_addresses s_to_shin (build_inverted_index example_df) example_df).1
    = Selected {[0]}
  ∧ (search_addresses s_okinawa (build_inverted_index example_df) example_df).1
    = Selected ∅
  ∧ build_inverted_index example_df !! s_okinawa = None
  ∧ build_inverted_index_over [name_pref; name_city] example_records
    = build_inverted_index example_df
  ∧ (∀ q index, (search_addresses q index example_records).1
                = (search_addresses q index example_df).1).
Proof.
  split_and!; [vm_compute; reflexivity..|].
  intros q index. unfold search_addresses.
  destruct (generate_2grams q) as [|token0 rest]; [done|].
  by destruct (dd_getitem index token0).
Qed.

(** ** The built index on records with missing values *)

Lemma not_elem_of_generate_2grams_tokyo : s_na ∉ generate_2grams s_tokyo_to.
Proof. apply (bool_decide_unpack _). vm_compute. exact I. Qed.

(** No record of [sparse_df] has the letters [na] in its values. *)
Lemma na_in_no_record :
  ¬ ∃ r row, rows sparse_df !! r = Some row
             ∧ occurs_in s_na (record_text sparse_df row).
Proof.
  intros (r & row & Hrow & Hocc).
  destruct r as [|[|r]]; simpl in Hrow; simplify_eq.
  - apply not_elem_of_generate_2grams_tokyo.
    apply elem_of_generate_2grams. split; [done|].
    replace s_tokyo_to
      with (record_text sparse_df {[ col_pref := s_tokyo_to ]}); [done|].
    vm_compute. reflexivity.
  - destruct Hocc as (pre & post & Heq).
    replace (record_text sparse_df ∅) with (@nil N) in Heq
      by (vm_compute; reflexivity).
    by destruct pre.
Qed.

(** C2. On [sparse_df] the label of the empty record is in the posting
    list of [na], although [na] is no substring of the concatenation of
    that record's searchable field values, which is the empty text. *)
Theorem posting_of_missing_value :
  1 ∈ postings (build_inverted_index sparse_df) s_na
  ∧ rows sparse_df !! 1 = Some ∅
  ∧ record_text sparse_df ∅ = []
  ∧ ¬ (∃ row, rows sparse_df !! 1 = Some row
              ∧ length s_na = 2
              ∧ occurs_in s_na (record_text sparse_df row)).
Proof.
  split_and!.
  - replace (postings (build_inverted_index sparse_df) s_na) with [0; 1; 1]
      by (vm_compute; reflexivity).
    apply elem_of_cons. right. left.
  - reflexivity.
  - vm_compute. reflexivity.
  - intros (row & Hrow & _ & Hocc). apply na_in_no_record. eauto.
Qed.

(** C6. On [sparse_df] the string [na] is a key of the built index,
    although it occurs in the concatenated searchable text of no
    record. *)
Theorem key_of_missing_value :
  s_na ∈ dom (build_inverted_index sparse_df)
  ∧ build_inverted_index sparse_df !! s_na = Some [0; 1; 1]
  ∧ ¬ (∃ r row, rows sparse_df !! r = Some row
                ∧ occurs_in s_na (record_text sparse_df row)).
Proof.
  assert (Hkey : build_inverted_index sparse_df !! s_na = Some [0; 1; 1])
    by (vm_compute; reflexivity).
  split_and!; [|done|apply na_in_no_record].
  apply elem_of_dom. by rewrite Hkey.
Qed.

(** C10. On [sparse_df] the label of the empty record is listed twice
    under [na], although [na] occurs nowhere in the concatenated
    searchable text of that record. *)
Theorem multiplicity_of_missing_value :
  count_of 1 (postings (build_inverted_index sparse_df) s_na) = 2
  ∧ rows sparse_df !! 1 = Some ∅
  ∧ occurrences s_na (record_text sparse_df ∅) = 0.
Proof. split_and!; vm_compute; reflexivity. Qed.

(** ** Searching the built index *)

(** C1. On [sparse_df] the query [na] returns both records, although its
    one 2-gram occurs in the concatenated searchable text of neither. *)
Theorem search_selects_missing_value :
  (search_addresses s_na (build_inverted_index sparse_df) sparse_df).1
    = Selected {[0; 1]}
  ∧ generate_2grams s_na = [s_na]
  ∧ ¬ (∃ r row, rows sparse_df !! r = Some row
                ∧ occurs_in s_na (record_text sparse_df row)).
Proof.
  split_and!; [vm_compute; reflexivity..|apply na_in_no_record].
Qed.

(** C4. A query shorter than two characters, the empty one included,
    returns the empty list whatever the index holds, and the index is
    left as it was. *)
Theorem search_short_query (q : str) (index : Index) (df : DataFrame) :
  length q < 2 →
  search_addresses q index df = (EmptyList, index)
  ∧ result_ids (search_addresses q index df).1 = ∅.
Proof.
  intros Hlen. unfold search_addresses.
  by rewrite (generate_2grams_short q Hlen).
Qed.

Lemma search_short_query_witness :
  length [26481%N] < 2
  ∧ search_addresses [26481%N] (build_inverted_index example_df) example_df
    = (EmptyList, build_inverted_index example_df)
  ∧ result_ids
      (search_addresses [26481%N] (build_inverted_index example_df)
         example_df).1 = ∅.
Proof.
  split; [simpl; lia|].
  apply (search_short_query [26481%N]). simpl; lia.
Defined.

(** ** What a search does to the index *)

(** C5, as stated, fails: on the example corpus the query 沖縄, whose
    2-gram is in no posting list, leaves the index with one key more. *)
Lemma search_adds_key :
  build_inverted_index example_df !! s_okinawa = None
  ∧ (search_addresses s_okinawa (build_inverted_index example_df)
       example_df).2 !! s_okinawa = Some []
  ∧ (search_addresses s_okinawa (build_inverted_index example_df)
       example_df).2 ≠ build_inverted_index example_df.
Proof.
  assert (Hbefore : build_inverted_index example_df !! s_okinawa = None)
    by (vm_compute; reflexivity).
  assert (Hafter : (search_addresses s_okinawa
                      (build_inverted_index example_df) example_df).2
                   !! s_okinawa = Some []).
  { rewrite search_addresses_snd_lookup, Hbefore. done. }
  split_and!; [done..|].
  intros Heq. rewrite Heq in Hafter. congruence.
Qed.

(** C5, amended. A search removes no key and changes no stored posting
    list; the keys afterwards are the keys before together with the
    2-grams of the query, each new key bound to the empty list; so every
    posting list, read with absent-as-empty, is what it was before. *)
Theorem search_preserves_postings (q : str) (index : Index) (df : DataFrame) :
  index ⊆ (search_addresses q index df).2
  ∧ dom (search_addresses q index df).2
    = dom index ∪ list_to_set (generate_2grams q)
  ∧ (∀ t, (search_addresses q index df).2 !! t
          = match index !! t with
            | Some l => Some l
            | None => if decide (t ∈ generate_2grams q) then Some [] else None
            end)
  ∧ (∀ t, postings (search_addresses q index df).2 t = postings index t).
Proof.
  split_and!.
  - apply map_subseteq_spec. intros t l Hl.
    by rewrite search_addresses_snd_lookup, Hl.
  - apply set_eq. intros t.
    rewrite elem_of_union, !elem_of_dom, elem_of_list_to_set,
      search_addresses_snd_lookup.
    destruct (index !! t) as [l|].
    + split; [by left|done].
    + case_decide.
      * split; [by right|done].
      * split; [by intros [? ?]|]. by intros [[? ?]|?].
  - intros t. apply search_addresses_snd_lookup.
  - intros t. unfold postings. rewrite search_addresses_snd_lookup.
    destruct (index !! t); [done|]. by case_decide.
Qed.

(** ** Building twice *)

(** The index is a function of the labels and of the records' texts
    alone: two frames with the same labels whose records have the same
    texts, in the same order, give the same index. *)
Lemma foldl_index_row_texts cols df df' (labels : list nat) rs rs' index :
  full_text_over cols df <$> rs = full_text_over cols df' <$> rs' →
  foldl (λ index ir, index_row cols df index ir.1 ir.2) index (zip labels rs)
  = foldl (λ index ir, index_row cols df' index ir.1 ir.2) index
          (zip labels rs').
Proof.
  revert rs rs' index.
  induction labels as [|x labels IH]; intros [|row rs] [|row' rs'] index Heq;
    simpl in *; [done..|discriminate|discriminate|].
  injection Heq as Hrow Hrest.
  unfold index_row at 2 4; simpl. rewrite Hrow.
  by apply IH.
Qed.

Lemma build_inverted_index_texts df df' :
  row_labels df = row_labels df' →
  full_text df <$> rows df = full_text df' <$> rows df' →
  build_inverted_index df = build_inverted_index df'.
Proof.
  intros Hlabels Heq.
  unfold build_inverted_index, build_inverted_index_over, iterrows.
  rewrite <- Hlabels. by apply foldl_index_row_texts.
Qed.

(** C8. Two runs of [build_inverted_index] on the same corpus give
    indexes with the same key set and, for every key, the same posting
    set. *)
Theorem build_idempotent (df : DataFrame) (first second : Index) :
  first = build_inverted_index df →
  second = build_inverted_index df →
  dom first = dom second
  ∧ ∀ t, list_to_set (C:=gset nat) (postings first t)
         = list_to_set (postings second t).
Proof. intros -> ->. done. Qed.

Lemma build_idempotent_witness :
  dom (build_inverted_index example_df) = dom (build_inverted_index example_df)
  ∧ ∀ t, list_to_set (C:=gset nat)
           (postings (build_inverted_index example_df) t)
         = list_to_set (postings (build_inverted_index example_df) t).
Proof.
  apply (build_idempotent example_df); reflexivity.
Defined.

(** ** Columns and values that are not there *)

(** A configured column that the frame does not have adds nothing. *)
Lemma field_text_absent df row col :
  col ∉ columns df → field_text df row col = [].
Proof. intros Hnot. unfold field_text. by rewrite bool_decide_eq_false_2. Qed.

(** A column of the frame for which the record has no value adds the
    three characters of [str(nan)]. *)
Lemma field_text_missing df row col :
  col ∈ columns df → row !! col = None → field_text df row col = nan_repr.
Proof.
  intros Hin Hnone. unfold field_text, row_getitem.
  by rewrite bool_decide_eq_true_2, Hnone.
Qed.

(** A record whose text has fewer than two characters leaves the index as
    it is. *)
Lemma index_row_short cols df index i row :
  length (full_text_over cols df row) < 2 →
  index_row cols df index i row = index.
Proof.
  intros Hlen. unfold index_row. by rewrite generate_2grams_short.
Qed.

(** C9. The builder on a frame with a record that lacks the city and a
    record that lacks every field: each missing value enters the text as
    the letters [nan], the empty record yields five tokens, both records
    are listed under the 2-gram [na], and a search for [na] selects both. *)
Theorem missing_value_indexed_as_nan :
  full_text sparse_df <$> rows sparse_df
    = [s_tokyo_to ++ nan_repr; nan_repr ++ nan_repr]
  ∧ length (tokens_at searchable_columns sparse_df 1) = 5
  ∧ postings (build_inverted_index sparse_df) s_na = [0; 1; 1]
  ∧ (search_addresses s_na (build_inverted_index sparse_df) sparse_df).1
    = Selected {[0; 1]}.
Proof. split_and!; vm_compute; reflexivity. Qed.

(** ** More on the tokenizer *)

Lemma generate_2grams_cons (c d : N) (rest : str) :
  generate_2grams (c :: d :: rest) = [c; d] :: generate_2grams (d :: rest).
Proof.
  apply list_eq. intros [|i].
  - by rewrite generate_2grams_lookup_lt by (simpl; lia).
  - simpl. apply option_eq. intros t.
    rewrite !generate_2grams_lookup. done.
Qed.

Lemma generate_2grams_singleton (c : N) : generate_2grams [c] = [].
Proof. done. Qed.

(** X1. The 2-grams of a concatenation are those of the left part, the
    one 2-gram that straddles the boundary, and those of the right part. *)
Theorem generate_2grams_boundary (a b : str) (x y : N) :
  generate_2grams ((a ++ [x]) ++ y :: b)
  = generate_2grams (a ++ [x]) ++ [x; y] :: generate_2grams (y :: b).
Proof.
  induction a as [|c a IH]; cbn [app].
  - by rewrite generate_2grams_cons, generate_2grams_singleton.
  - destruct a as [|d a]; cbn [app] in *.
    + by rewrite !generate_2grams_cons, generate_2grams_singleton.
    + by rewrite !generate_2grams_cons, IH.
Qed.

Lemma bind_drop_generate_2grams (d : N) (rest : str) :
  generate_2grams (d :: rest) ≫= drop 1 = rest.
Proof.
  revert d. induction rest as [|e rest IH]; intros d; [done|].
  by rewrite generate_2grams_cons, bind_cons, IH.
Qed.

(** X2. The tokenizer loses nothing of a text of two characters or more:
    the first character of the first 2-gram followed by the second
    character of every 2-gram is the text again. *)
Theorem rebuild_text_generate_2grams (text : str) :
  2 ≤ length text → rebuild_text (generate_2grams text) = text.
Proof.
  intros Hlen. destruct text as [|c [|d rest]]; simpl in Hlen; [lia..|].
  rewrite generate_2grams_cons. unfold rebuild_text.
  by rewrite bind_cons, bind_drop_generate_2grams.
Qed.

Lemma rebuild_text_generate_2grams_witness :
  rebuild_text (generate_2grams s_tokyo_to) = s_tokyo_to.
Proof. apply rebuild_text_generate_2grams. simpl; lia. Defined.

(** ** More on the builder and the query engine *)

Lemma occurs_in_trans (a b c : str) :
  occurs_in a b → occurs_in b c → occurs_in a c.
Proof.
  intros (p1 & s1 & ->) (p2 & s2 & ->).
  exists (p2 ++ p1), (s1 ++ s2). by rewrite <- !app_assoc.
Qed.

Lemma generate_2grams_occurs_in (q text : str) (t : str) :
  occurs_in q text → t ∈ generate_2grams q → t ∈ generate_2grams text.
Proof.
  intros Hq [Hlen Ht]%elem_of_generate_2grams.
  apply elem_of_generate_2grams. split; [done|].
  by apply (occurs_in_trans _ q).
Qed.

Lemma postings_search_addresses q index df t :
  postings (search_addresses q index df).2 t = postings index t.
Proof.
  unfold postings. rewrite search_addresses_snd_lookup.
  destruct (index !! t); [done|]. by case_decide.
Qed.

Lemma postings_index_after df index queries t :
  postings (index_after df index queries) t = postings index t.
Proof.
  unfold index_after. revert index.
  induction queries as [|q queries IH]; intros index; simpl; [done|].
  by rewrite IH, postings_search_addresses.
Qed.

(** On the index built from a frame with the default index, a query
    with a 2-gram selects exactly the records that match it. *)
Lemma search_built_selected df q :
  default_index df →
  generate_2grams q ≠ [] →
  ∃ ids,
    (search_addresses q (build_inverted_index df) df).1 = Selected ids
    ∧ ∀ r, r ∈ ids ↔ ∃ row, rows df !! r = Some row ∧ query_matches df q row.
Proof.
  intros Hdef Hne.
  pose proof (elem_of_postings_build searchable_columns df) as Hpost.
  destruct (search_addresses_fst q (build_inverted_index df) df Hne)
    as (ids & Hres & Hids).
  assert (Hspec : ∀ r, r ∈ ids ↔
            ∃ row, rows df !! r = Some row ∧ query_matches df q row).
  { intros r. rewrite Hids. unfold query_matches. split.
    - intros Hall. destruct (generate_2grams q) as [|t0 rest] eqn:Hq; [done|].
      destruct (proj1 (Hpost t0 r Hdef)) as (row & Hrow & _).
      { apply Hall. left. }
      exists row. split; [done|]. apply Forall_forall. intros t Ht.
      destruct (proj1 (Hpost t r Hdef) (Hall t Ht)) as (row' & Hrow' & Hin).
      by simplify_eq.
    - intros (row & Hrow & Hall) t Ht.
      apply (Hpost t r Hdef).
      exists row. split; [done|].
      by apply (proj1 (Forall_forall _ _) Hall). }
  exists ids. split; [|done].
  rewrite Hres. apply iloc_in_range.
  intros r (row & Hrow%lookup_lt_Some & _)%Hspec. done.
Qed.

(** Where no value is missing, the text the builder makes is the
    record's searchable text. *)
Lemma full_text_record_text df row :
  Forall (λ col, col ∈ columns df → is_Some (row !! col)) searchable_columns →
  full_text df row = record_text df row.
Proof.
  intros Hall. unfold full_text, record_text.
  rewrite full_text_over_concat. f_equal.
  apply Forall_fmap_ext. eapply Forall_impl; [exact Hall|].
  intros col Hcol. unfold field_text, field_value, row_getitem.
  case_bool_decide as Hin; [|done].
  by destruct (Hcol Hin) as [v ->].
Qed.

Lemma complete_lookup df r row :
  complete df → rows df !! r = Some row →
  full_text df row = record_text df row.
Proof.
  intros Hall Hrow. apply full_text_record_text.
  apply (proj1 (Forall_forall _ _) Hall).
  by apply list_elem_of_lookup_2 in Hrow.
Qed.

Lemma count_of_fmap {A B} `{EqDecision B} (f : A → B) (y : B) (l : list A) :
  count_of y (f <$> l) = length (filter (λ x, f x = y) l).
Proof.
  induction l as [|x l IH]; [done|].
  rewrite fmap_cons, count_of_cons, filter_cons, IH.
  destruct (decide (y = f x)) as [->|Hne].
  - by rewrite decide_True.
  - rewrite decide_False; [done|congruence].
Qed.

(** The 2-grams equal to [t] are as many as the places where [t] starts. *)
Lemma count_of_generate_2grams (t text : str) :
  length t = 2 → count_of t (generate_2grams text) = occurrences t text.
Proof.
  intros Hlen. unfold generate_2grams, occurrences, range.
  rewrite count_of_fmap, Hlen.
  replace (Z.to_nat (Z.of_nat (length text) - 1)) with (length text - 1)
    by lia.
  destruct (length text) as [|n] eqn:Hn; [done|].
  replace (S n - 1) with n by lia.
  rewrite seq_S, filter_app, length_app. simpl.
  rewrite filter_cons, decide_False, filter_nil.
  - simpl. rewrite Nat.add_0_r. f_equal.
    apply list_filter_iff. intros i. unfold slice.
    by replace (i + 2 - i) with 2 by lia.
  - intros Heq. apply (f_equal length) in Heq.
    rewrite length_take, length_drop, Hlen, Hn in Heq. lia.
Qed.

Lemma full_text_absent_columns cols df row :
  Forall (λ col, col ∉ columns df) cols → full_text_over cols df row = [].
Proof.
  intros Hall. rewrite full_text_over_concat.
  induction Hall as [|col cols' Hcol _ IH]; [done|].
  rewrite fmap_cons. cbn [concat].
  by rewrite field_text_absent, IH.
Qed.

Lemma foldl_index_row_short cols df index irs :
  (∀ row, length (full_text_over cols df row) < 2) →
  foldl (λ index ir, index_row cols df index ir.1 ir.2) index irs = index.
Proof.
  intros Hshort. induction irs as [|[i row] irs IH]; simpl; [done|].
  by rewrite index_row_short.
Qed.

(** X3. A frame with none of the searchable columns is indexed without
    complaint: the index is empty and every query finds nothing. *)
Theorem no_searchable_column (df : DataFrame) :
  Forall (λ col, col ∉ columns df) searchable_columns →
  build_inverted_index df = ∅
  ∧ ∀ q, result_ids (search_addresses q (build_inverted_index df) df).1 = ∅.
Proof.
  intros Hall.
  assert (Hempty : build_inverted_index df = ∅).
  { apply foldl_index_row_short. intros row.
    rewrite full_text_absent_columns by done. simpl. lia. }
  split; [done|]. intros q.
  destruct (decide (generate_2grams q = [])) as [Hnil|Hne].
  - unfold search_addresses. by rewrite Hnil.
  - destruct (search_addresses_fst q (build_inverted_index df) df Hne)
      as (ids & -> & Hids).
    assert (ids = ∅) as ->.
    { apply set_eq. intros r. rewrite Hids, Hempty. split.
      - intros Hall'. destruct (generate_2grams q) as [|t0 rest]; [done|].
        specialize (Hall' t0 (list_elem_of_here _ _)).
        unfold postings in Hall'. rewrite lookup_empty in Hall'.
        by apply elem_of_nil in Hall'.
      - by intros ?%elem_of_empty. }
    by rewrite iloc_in_range by (by intros ? ?%elem_of_empty).
Qed.

Lemma no_searchable_column_witness :
  build_inverted_index zip_only_df = ∅
  ∧ ∀ q, result_ids
           (search_addresses q (build_inverted_index zip_only_df)
              zip_only_df).1 = ∅.
Proof.
  apply (no_searchable_column zip_only_df).
  apply (bool_decide_unpack _). vm_compute. exact I.
Defined.

(** X4. Only the searchable columns count: two frames with the same row
    labels that have the same searchable columns, and whose records agree
    on them, give the same index, whatever else they hold. *)
Theorem index_ignores_other_columns (df df' : DataFrame) :
  row_labels df = row_labels df' →
  Forall (λ col, bool_decide (col ∈ columns df)
                 = bool_decide (col ∈ columns df')) searchable_columns →
  Forall2 (λ row row' : Row,
             Forall (λ col, row !! col = row' !! col) searchable_columns)
          (rows df) (rows df') →
  build_inverted_index df = build_inverted_index df'.
Proof.
  intros Hlabels Hcols Hrows. apply build_inverted_index_texts; [done|].
  induction Hrows as [|row row' rs rs' Hrow _ IH]; [done|].
  rewrite !fmap_cons. f_equal; [|done].
  unfold full_text. rewrite !full_text_over_concat. f_equal.
  apply Forall_fmap_ext, Forall_forall. intros col Hin.
  pose proof (proj1 (Forall_forall _ _) Hcols col Hin) as Hcol.
  pose proof (proj1 (Forall_forall _ _) Hrow col Hin) as Hval.
  unfold field_text, row_getitem. simpl in Hcol, Hval.
  by rewrite Hcol, Hval.
Qed.

Lemma index_ignores_other_columns_witness :
  build_inverted_index zip_df = build_inverted_index example_df.
Proof.
  apply index_ignores_other_columns.
  - reflexivity.
  - apply (bool_decide_unpack _). vm_compute. exact I.
  - apply (bool_decide_unpack _). vm_compute. exact I.
Defined.

(** X5. Earlier queries leave no trace in later results: on the index as
    any series of queries left it, a query returns what it returns on the
    freshly built index. *)
Theorem search_after_queries (df : DataFrame) (queries : list str) (q : str) :
  (search_addresses q (index_after df (build_inverted_index df) queries) df).1
  = (search_addresses q (build_inverted_index df) df).1.
Proof.
  apply search_addresses_fst_ext. intros t.
  by rewrite postings_index_after.
Qed.

(** X6. No false negatives where the frame has the default index and no
    value is missing: a record whose searchable text contains the query
    as a contiguous substring is among the records returned. *)
Theorem search_finds_substring (df : DataFrame) (q : str) (r : nat) (row : Row) :
  default_index df →
  complete df →
  2 ≤ length q →
  rows df !! r = Some row →
  occurs_in q (record_text df row) →
  r ∈ result_ids (search_addresses q (build_inverted_index df) df).1.
Proof.
  intros Hdef Hcomplete Hlen Hrow Hocc.
  assert (Hne : generate_2grams q ≠ []).
  { intros Hnil%generate_2grams_nil_inv. lia. }
  destruct (search_built_selected df q Hdef Hne) as (ids & -> & Hids).
  simpl. apply Hids. exists row. split; [done|].
  apply Forall_forall. intros t Ht.
  rewrite (complete_lookup df r row) by done.
  by apply (generate_2grams_occurs_in q).
Qed.

Lemma search_finds_substring_witness :
  0 ∈ result_ids
        (search_addresses s_to_shin (build_inverted_index example_df)
           example_df).1.
Proof.
  apply (search_finds_substring example_df s_to_shin 0
           {[ col_pref := s_tokyo_to; col_city := s_shinjuku_ku ]}).
  - reflexivity.
  - apply (bool_decide_unpack _). vm_compute. exact I.
  - simpl; lia.
  - reflexivity.
  - exists [26481; 20140]%N, [23487; 21306]%N. vm_compute. reflexivity.
Defined.

(** X7. Lengthening a query never adds results: on a frame with the
    default index, when the query [q] occurs inside the query [q'], every
    record returned for [q'] is returned for [q]. *)
Theorem search_longer_query_narrows (df : DataFrame) (q q' : str) :
  default_index df →
  2 ≤ length q →
  occurs_in q q' →
  result_ids (search_addresses q' (build_inverted_index df) df).1
  ⊆ result_ids (search_addresses q (build_inverted_index df) df).1.
Proof.
  intros Hdef Hlen Hocc.
  assert (Hne : generate_2grams q ≠ []).
  { intros Hnil%generate_2grams_nil_inv. lia. }
  assert (Hne' : generate_2grams q' ≠ []).
  { intros Hnil. destruct (generate_2grams q) as [|t0 rest] eqn:Hq; [done|].
    assert (Hin : t0 ∈ generate_2grams q') .
    { apply (generate_2grams_occurs_in q); [done|]. rewrite Hq. left. }
    rewrite Hnil in Hin. by apply elem_of_nil in Hin. }
  destruct (search_built_selected df q Hdef Hne) as (ids & -> & Hids).
  destruct (search_built_selected df q' Hdef Hne') as (ids' & -> & Hids').
  simpl. intros r (row & Hrow & Hall)%Hids'. apply Hids.
  exists row. split; [done|]. apply Forall_forall. intros t Ht.
  apply (proj1 (Forall_forall _ _) Hall).
  by apply (generate_2grams_occurs_in q).
Qed.

Lemma search_longer_query_narrows_witness :
  result_ids (search_addresses s_osaka_fu (build_inverted_index example_df)
                example_df).1
  ⊆ result_ids (search_addresses s_osaka (build_inverted_index example_df)
                  example_df).1.
Proof.
  apply (search_longer_query_narrows example_df s_osaka s_osaka_fu).
  - reflexivity.
  - simpl; lia.
  - exists [], [24220%N]. reflexivity.
Defined.

(** X8. Asking the same query again changes nothing further: run on the
    index the first call left behind, the second call returns the same
    result and leaves the index exactly as it found it. *)
Theorem search_twice (q : str) (index : Index) (df : DataFrame) :
  search_addresses q (search_addresses q index df).2 df
  = search_addresses q index df.
Proof.
  apply injective_projections.
  - apply search_addresses_fst_ext. intros t.
    by rewrite postings_search_addresses.
  - apply map_eq. intros t. rewrite !search_addresses_snd_lookup.
    destruct (index !! t); [done|]. by case_decide.
Qed.

(** X9. The index and the frame must belong together: on any index, a
    query of at least two characters ends in the [IndexError] of
    [df.iloc] exactly when some label beyond the end of the frame is in
    the posting list of every 2-gram of the query. *)
Theorem search_index_error (q : str) (index : Index) (df : DataFrame) :
  2 ≤ length q →
  (search_addresses q index df).1 = IndexError ↔
  ∃ x, length (rows df) ≤ x
       ∧ ∀ t, t ∈ generate_2grams q → x ∈ postings index t.
Proof.
  intros Hlen.
  assert (Hne : generate_2grams q ≠ []).
  { intros Hnil%generate_2grams_nil_inv. lia. }
  destruct (search_addresses_fst q index df Hne) as (ids & -> & Hids).
  unfold iloc. case_bool_decide as Hall.
  - split; [done|]. intros (x & Hx & Hin%Hids).
    apply Hall in Hin. lia.
  - split; [|done]. intros _.
    rewrite set_Forall_elements in Hall.
    apply not_Forall_Exists in Hall; [|apply _].
    apply Exists_exists in Hall as (x & Hx%elem_of_elements & Hge).
    simpl in Hge. exists x. split; [lia|]. by apply Hids.
Qed.

Lemma search_index_error_witness :
  (search_addresses s_osaka (build_inverted_index example_df) first_row_df).1
    = IndexError ↔
  ∃ x, length (rows first_row_df) ≤ x
       ∧ ∀ t, t ∈ generate_2grams s_osaka →
              x ∈ postings (build_inverted_index example_df) t.
Proof.
  apply (search_index_error s_osaka). simpl; lia.
Defined.



(** ** The loader *)

Section loader.
Context (read : encoding → read_outcome).
Implicit Types (encs pre post : list encoding) (log : list printed).

Lemma load_csv_loop_cons enc encs :
  load_csv_loop read (enc :: encs) =
  match read enc with
  | ReadOk df => ([LoadedWith enc], inr df)
  | DecodeError =>
      (FailedWith enc :: (load_csv_loop read encs).1,
       (load_csv_loop read encs).2)
  | ReadFailure what => ([], inl (ReaderError what))
  end.
Proof. simpl. by destruct (read enc). Qed.

Lemma first_split (P : encoding → Prop) enc encs pre e post :
  enc :: encs = pre ++ e :: post →
  Forall P pre →
  (pre = [] ∧ e = enc ∧ post = encs)
  ∨ (∃ pre', pre = enc :: pre' ∧ encs = pre' ++ e :: post
             ∧ P enc ∧ Forall P pre').
Proof.
  intros Heq Hall. destruct pre as [|e0 pre'].
  - left. by injection Heq as -> ->.
  - right. injection Heq as -> ->. exists pre'.
    apply Forall_cons in Hall as [? ?]. done.
Qed.

(** The loop returns a frame exactly when the first encoding that does
    not end in UnicodeDecodeError reads that frame. *)
Lemma load_csv_loop_ok encs log df :
  load_csv_loop read encs = (log, inr df) ↔
  ∃ pre enc post,
    encs = pre ++ enc :: post
    ∧ Forall (λ e, read e = DecodeError) pre
    ∧ read enc = ReadOk df
    ∧ log = (FailedWith <$> pre) ++ [LoadedWith enc].
Proof.
  revert log. induction encs as [|enc encs IH]; intros log.
  - split; [done|]. by intros ([|??] & ? & ? & ? & _).
  - rewrite load_csv_loop_cons. split.
    + destruct (read enc) as [df0| |what0] eqn:Hread; [| |done].
      * intros [= <- <-]. exists [], enc, encs.
        split_and!; [done|constructor|done..].
      * intros Heq.
        destruct (load_csv_loop read encs) as [log' res]. simpl in Heq.
        injection Heq as <- ->.
        destruct (proj1 (IH log') eq_refl)
          as (pre & e & post & -> & Hall & Hok & ->).
        exists (enc :: pre), e, post.
        split_and!; [done|by constructor|done..].
    + intros (pre & e & post & Heq & Hall & Hok & ->).
      destruct (first_split _ _ _ _ _ _ Heq Hall)
        as [(-> & -> & ->)|(pre' & -> & -> & Henc & Hall')].
      * by rewrite Hok.
      * rewrite Henc.
        rewrite (proj2 (IH ((FailedWith <$> pre') ++ [LoadedWith e]))); [done|].
        by exists pre', e, post.
Qed.

(** The loop raises its own ValueError exactly when every encoding ends
    in UnicodeDecodeError. *)
Lemma load_csv_loop_value_error encs log :
  load_csv_loop read encs = (log, inl ValueError) ↔
  Forall (λ e, read e = DecodeError) encs ∧ log = FailedWith <$> encs.
Proof.
  revert log. induction encs as [|enc encs IH]; intros log.
  - split; [intros [= <-]; by split|]. by intros [_ ->].
  - rewrite load_csv_loop_cons. split.
    + destruct (read enc) as [df0| |what0] eqn:Hread; [done| |done].
      intros Heq.
      destruct (load_csv_loop read encs) as [log' res]. simpl in Heq.
      injection Heq as <- ->.
      destruct (proj1 (IH log') eq_refl) as [Hall ->].
      split; [by constructor|done].
    + intros [[Henc Hall]%Forall_cons ->]. rewrite Henc.
      by rewrite (proj2 (IH (FailedWith <$> encs))).
Qed.

(** The loop lets any other exception of the reader through, exactly
    when the first encoding that does not end in UnicodeDecodeError ends
    that way; the encodings after it are not tried. *)
Lemma load_csv_loop_reader_error encs log what :
  load_csv_loop read encs = (log, inl (ReaderError what)) ↔
  ∃ pre enc post,
    encs = pre ++ enc :: post
    ∧ Forall (λ e, read e = DecodeError) pre
    ∧ read enc = ReadFailure what
    ∧ log = FailedWith <$> pre.
Proof.
  revert log. induction encs as [|enc encs IH]; intros log.
  - split; [done|]. by intros ([|??] & ? & ? & ? & _).
  - rewrite load_csv_loop_cons. split.
    + destruct (read enc) as [df0| |what0] eqn:Hread; [done| |].
      * intros Heq.
        destruct (load_csv_loop read encs) as [log' res]. simpl in Heq.
        injection Heq as <- ->.
        destruct (proj1 (IH log') eq_refl)
          as (pre & e & post & -> & Hall & Hok & ->).
        exists (enc :: pre), e, post.
        split_and!; [done|by constructor|done..].
      * intros [= <- <-]. exists [], enc, encs.
        split_and!; [done|constructor|done..].
    + intros (pre & e & post & Heq & Hall & Hok & ->).
      destruct (first_split _ _ _ _ _ _ Heq Hall)
        as [(-> & -> & ->)|(pre' & -> & -> & Henc & Hall')].
      * by rewrite Hok.
      * rewrite Henc.
        rewrite (proj2 (IH (FailedWith <$> pre'))); [done|].
        by exists pre', e, post.
Qed.
End loader.

(** X11. [load_csv] returns a frame exactly when, going through shift_jis,
    euc_jp, iso2022_jp, cp932 in this order, the first encoding that does
    not end in UnicodeDecodeError reads that frame; it then has printed
    one failure line for each encoding before it and one success line. *)
Theorem load_csv_first_success
    (read_csv : str → encoding → read_outcome) (file_path : str)
    (log : list printed) (df : DataFrame) :
  load_csv read_csv file_path = (log, inr df) ↔
  ∃ pre enc post,
    encodings = pre ++ enc :: post
    ∧ Forall (λ e, read_csv file_path e = DecodeError) pre
    ∧ read_csv file_path enc = ReadOk df
    ∧ log = (FailedWith <$> pre) ++ [LoadedWith enc].
Proof. apply load_csv_loop_ok. Qed.

(** X12. [load_csv] raises ValueError exactly when all four encodings end
    in UnicodeDecodeError, after printing the four failure lines. *)
Theorem load_csv_value_error
    (read_csv : str → encoding → read_outcome) (file_path : str)
    (log : list printed) :
  load_csv read_csv file_path = (log, inl ValueError) ↔
  Forall (λ e, read_csv file_path e = DecodeError) encodings
  ∧ log = FailedWith <$> encodings.
Proof. apply load_csv_loop_value_error. Qed.

(** X13. Only UnicodeDecodeError is caught: [load_csv] lets another
    exception of the reader through exactly when the first encoding that
    does not end in UnicodeDecodeError raises it; it has then printed one
    failure line for each encoding before that one, and no later encoding
    is tried. *)
Theorem load_csv_other_error
    (read_csv : str → encoding → read_outcome) (file_path : str)
    (log : list printed) (what : str) :
  load_csv read_csv file_path = (log, inl (ReaderError what)) ↔
  ∃ pre enc post,
    encodings = pre ++ enc :: post
    ∧ Forall (λ e, read_csv file_path e = DecodeError) pre
    ∧ read_csv file_path enc = ReadFailure what
    ∧ log = FailedWith <$> pre.
Proof. apply load_csv_loop_reader_error. Qed.

(** ** Display and the main program *)

Section display.
Context (df : DataFrame).
Implicit Types (row : Row) (cols pre post : list str) (ids : gset nat).






End display.

Lemma main_loaded read_csv file_path q log df :
  load_csv read_csv file_path = (log, inr df) →
  main read_csv file_path q
  = (log ++ (display_results df
               (search_addresses q (build_inverted_index df) df).1).1,
     (display_results df
        (search_addresses q (build_inverted_index df) df).1).2).
Proof. intros Hload. unfold main, mbind, run_bind. by rewrite Hload. Qed.

Lemma generate_2grams_long q : 2 ≤ length q → generate_2grams q ≠ [].
Proof. intros Hlen Hnil%generate_2grams_nil_inv. lia. Qed.

(** X14. A query of fewer than two characters makes the program crash:
    once the file is loaded, [main] ends in the AttributeError of
    [iterrows] on the empty list, having printed only what the loader
    printed. *)
Theorem main_short_query
    (read_csv : str → encoding → read_outcome) (file_path q : str)
    (log : list printed) (df : DataFrame) :
  load_csv read_csv file_path = (log, inr df) →
  length q < 2 →
  main read_csv file_path q = (log, inl AttributeError).
Proof.
  intros Hload Hlen. rewrite (main_loaded _ _ _ _ _ Hload).
  unfold search_addresses. rewrite generate_2grams_short by done.
  simpl. by rewrite app_nil_r.
Qed.

Lemma main_short_query_witness :
  main euc_reader [] [22823%N]
  = ([FailedWith shift_jis; LoadedWith euc_jp], inl AttributeError).
Proof.
  apply (main_short_query euc_reader [] [22823%N] _ postal_df).
  - reflexivity.
  - simpl; lia.
Defined.







(** ** The built index where labels are positions and no value is missing *)

Lemma query_matches_record_text df q row :
  full_text df row = record_text df row →
  query_matches df q row ↔
  ∀ t, length t = 2 → occurs_in t q → occurs_in t (record_text df row).
Proof.
  intros Htext. unfold query_matches. rewrite Forall_forall, Htext. split.
  - intros Hall t Hlen Hocc.
    assert (Hin : t ∈ generate_2grams q)
      by (by apply elem_of_generate_2grams).
    by apply Hall, elem_of_generate_2grams in Hin as [_ ?].
  - intros Hall t [Hlen Hocc]%elem_of_generate_2grams.
    apply elem_of_generate_2grams. split; [done|]. by apply Hall.
Qed.

(** X19. On a frame with the default index in which no record lacks a
    searchable value, the label [r] is in the posting list of [t] exactly
    when [r] is the position of a record and [t] is a two-character
    contiguous substring of that record's searchable values, concatenated
    in the order of the column list with nothing in between. *)
Theorem posting_membership_complete (df : DataFrame) (t : str) (r : nat) :
  default_index df →
  complete df →
  r ∈ postings (build_inverted_index df) t ↔
  ∃ row, rows df !! r = Some row
         ∧ length t = 2
         ∧ occurs_in t (record_text df row).
Proof.
  intros Hdef Hcomplete. unfold build_inverted_index.
  rewrite (elem_of_postings_build _ _ _ _ Hdef). split.
  - intros (row & Hrow & Hin). exists row. split; [done|].
    apply elem_of_generate_2grams.
    by rewrite <- (complete_lookup df r row).
  - intros (row & Hrow & Hlen & Hocc). exists row. split; [done|].
    fold (full_text df row). rewrite (complete_lookup df r row) by done.
    by apply elem_of_generate_2grams.
Qed.

Lemma posting_membership_complete_witness :
  1 ∈ postings (build_inverted_index example_df) s_osaka ↔
  ∃ row, rows example_df !! 1 = Some row
         ∧ length s_osaka = 2
         ∧ occurs_in s_osaka (record_text example_df row).
Proof.
  apply (posting_membership_complete example_df s_osaka 1).
  - reflexivity.
  - apply (bool_decide_unpack _). vm_compute. exact I.
Defined.

(** X20. On such a frame a string is a key of the built index exactly
    when it has two characters and is a contiguous substring of the
    searchable text of at least one record. *)
Theorem index_key_set_complete (df : DataFrame) (t : str) :
  default_index df →
  complete df →
  t ∈ dom (build_inverted_index df) ↔
  length t = 2
  ∧ ∃ r row, rows df !! r = Some row ∧ occurs_in t (record_text df row).
Proof.
  intros Hdef Hcomplete. unfold build_inverted_index.
  rewrite (elem_of_dom_build _ _ _ Hdef). split.
  - intros (r & row & Hrow & Hin). fold (full_text df row) in Hin.
    rewrite (complete_lookup df r row) in Hin by done.
    apply elem_of_generate_2grams in Hin as [Hlen Hocc]. eauto.
  - intros (Hlen & r & row & Hrow & Hocc). exists r, row. split; [done|].
    fold (full_text df row). rewrite (complete_lookup df r row) by done.
    by apply elem_of_generate_2grams.
Qed.

Lemma index_key_set_complete_witness :
  s_to_shin ∈ dom (build_inverted_index example_df) ↔
  length s_to_shin = 2
  ∧ ∃ r row, rows example_df !! r = Some row
             ∧ occurs_in s_to_shin (record_text example_df row).
Proof.
  apply (index_key_set_complete example_df s_to_shin).
  - reflexivity.
  - apply (bool_decide_unpack _). vm_compute. exact I.
Defined.

(** X21. On such a frame a query of two characters or more returns a
    selection of rows, and the position [r] is selected exactly when the
    searchable text of record [r] contains every two-character substring
    of the query. *)
Theorem search_conjunctive_complete (df : DataFrame) (q : str) :
  default_index df →
  complete df →
  2 ≤ length q →
  ∃ ids,
    (search_addresses q (build_inverted_index df) df).1 = Selected ids
    ∧ ∀ r, r ∈ ids ↔
           ∃ row, rows df !! r = Some row
                  ∧ ∀ t, length t = 2 → occurs_in t q →
                         occurs_in t (record_text df row).
Proof.
  intros Hdef Hcomplete Hlen.
  destruct (search_built_selected df q Hdef (generate_2grams_long q Hlen))
    as (ids & Hres & Hids).
  exists ids. split; [done|]. intros r. rewrite Hids. split.
  - intros (row & Hrow & Hmatch). exists row. split; [done|].
    apply (query_matches_record_text df q row); [|done].
    by apply (complete_lookup df r row).
  - intros (row & Hrow & Hall). exists row. split; [done|].
    apply (query_matches_record_text df q row); [|done].
    by apply (complete_lookup df r row).
Qed.

Lemma search_conjunctive_complete_witness :
  ∃ ids,
    (search_addresses s_tokyo_to (build_inverted_index example_df)
       example_df).1 = Selected ids
    ∧ ∀ r, r ∈ ids ↔
           ∃ row, rows example_df !! r = Some row
                  ∧ ∀ t, length t = 2 → occurs_in t s_tokyo_to →
                         occurs_in t (record_text example_df row).
Proof.
  apply (search_conjunctive_complete example_df s_tokyo_to).
  - reflexivity.
  - apply (bool_decide_unpack _). vm_compute. exact I.
  - simpl; lia.
Defined.

(** X22. On a frame with the default index every posting list of the
    built index is in nondecreasing order of labels. *)
Theorem posting_lists_sorted (df : DataFrame) (t : str) :
  default_index df →
  StronglySorted le (postings (build_inverted_index df) t).
Proof. apply postings_build_sorted. Qed.

Lemma posting_lists_sorted_witness :
  StronglySorted le (postings (build_inverted_index example_df) s_osaka).
Proof. apply (posting_lists_sorted example_df s_osaka). reflexivity. Defined.

(** X23. Repeated labels in a posting list do not show in a search: on
    any index, the index with every posting list deduplicated returns the
    same result. *)
Theorem search_dedup_index (q : str) (index : Index) (df : DataFrame) :
  (search_addresses q (dedup_index index) df).1
  = (search_addresses q index df).1.
Proof.
  apply search_addresses_fst_ext. intros k.
  rewrite postings_dedup_index. apply set_eq. intros x.
  by rewrite !elem_of_list_to_set, elem_of_remove_dups.
Qed.

(** X24. On a frame with the default index in which no record lacks a
    searchable value, the position of a record is listed under a
    two-character token as many times as the token starts at some place
    of the record's searchable text: once per occurrence, never
    deduplicated. *)
Theorem posting_multiplicity_complete
    (df : DataFrame) (t : str) (r : nat) (row : Row) :
  default_index df →
  complete df →
  length t = 2 →
  rows df !! r = Some row →
  count_of r (postings (build_inverted_index df) t)
  = occurrences t (record_text df row).
Proof.
  intros Hdef Hcomplete Hlen Hrow. unfold build_inverted_index.
  rewrite (count_of_postings_build _ _ _ _ Hdef). unfold tokens_at.
  rewrite Hrow. fold (full_text df row).
  rewrite (complete_lookup df r row) by done.
  by apply count_of_generate_2grams.
Qed.

Lemma posting_multiplicity_complete_witness :
  count_of 1 (postings (build_inverted_index example_df) s_osaka)
  = occurrences s_osaka
      (record_text example_df
         {[ col_pref := s_osaka_fu; col_city := s_osaka_shi ]}).
Proof.
  apply (posting_multiplicity_complete example_df s_osaka 1).
  - reflexivity.
  - apply (bool_decide_unpack _). vm_compute. exact I.
  - reflexivity.
  - reflexivity.
Defined.
